(** * parallelStack: a lock-protected LIFO container

    Shallow embedding of [src/parallelStack.cpp] (class template
    [threadsafe_stack<T>]) and proofs of its specification.

    Layout of the development:
    - [std_stack]: the operations of [std::stack<T>] the class uses;
    - [shared_mutex]: the states of [std::shared_mutex] and its four
      lock operations;
    - [threadsafe_stack]: the class, one definition per member function,
      statement by statement;
    - [heap]: objects at addresses, for the copy constructor;
    - [conc]: threads that call [push] and [pop], interleaved at the
      granularity of the statements of the member functions;
    - the theorems. *)

From stdpp Require Import base option list gmap.

Set Default Proof Using "Type".

(** ** [std::stack<T>]

    The adapter's sequence is a list whose head is the top of the stack
    ([back()] of the underlying [std::deque]). [top] and [pop] on an empty
    stack are undefined behaviour in C++: they answer [None] here, and the
    class is shown never to reach that answer. *)
Module std_stack.
Section ops.
Context {T : Type}.

Definition empty (c : list T) : bool :=
  match c with [] => true | _ :: _ => false end.

Definition size (c : list T) : nat := length c.

Definition push (x : T) (c : list T) : list T := x :: c.

(** [emplace(std::forward<T>(x))] constructs the new element from an
    rvalue of the element type itself: the element is [x]. *)
Definition emplace (x : T) (c : list T) : list T := x :: c.

Definition top (c : list T) : option T :=
  match c with [] => None | x :: _ => Some x end.

Definition pop (c : list T) : option (list T) :=
  match c with [] => None | _ :: c' => Some c' end.

(** Assignment through the reference that [top()] returns. *)
Definition set_top (y : T) (c : list T) : option (list T) :=
  match c with [] => None | _ :: c' => Some (y :: c') end.
End ops.
End std_stack.

(** ** [std::shared_mutex]

    [locked_shared n] is held by [S n] readers. A lock request that cannot
    be granted answers [None]: the caller has to wait. *)
Module shared_mutex.
Inductive t : Type :=
| unlocked
| locked_exclusive
| locked_shared (n : nat).

Definition lock (mx : t) : option t :=
  match mx with unlocked => Some locked_exclusive | _ => None end.

Definition unlock (mx : t) : t := unlocked.

Definition lock_shared (mx : t) : option t :=
  match mx with
  | unlocked => Some (locked_shared 0)
  | locked_shared n => Some (locked_shared (S n))
  | locked_exclusive => None
  end.

Definition unlock_shared (mx : t) : t :=
  match mx with
  | locked_shared (S n) => locked_shared n
  | _ => unlocked
  end.
End shared_mutex.

(** [std::shared_ptr<T>] as produced by [std::make_shared<T>(v)]: never
    null, owning one [T]. *)
Record shared_ptr (T : Type) : Type := make_shared { deref : T }.
Arguments make_shared {T} _.
Arguments deref {T} _.

(** What a call does: it returns a value and leaves a new state, it waits
    for the mutex, or it runs into undefined behaviour. Code runs in a
    state monad with these three outcomes. *)
Inductive outcome (S A : Type) : Type :=
| Returns (a : A) (s : S)
| Blocks
| Undefined.
Arguments Returns {S A} _ _.
Arguments Blocks {S A}.
Arguments Undefined {S A}.

Definition stm (S A : Type) : Type := S → outcome S A.

Definition ret {S A} (a : A) : stm S A := fun s => Returns a s.

Definition bind {S A B} (c : stm S A) (k : A → stm S B) : stm S B :=
  fun s =>
    match c s with
    | Returns a s' => k a s'
    | Blocks => Blocks
    | Undefined => Undefined
    end.

Notation "x ←– c ; k" := (bind c (fun x => k))
  (at level 100, c at next level, right associativity).
Notation "c ;– k" := (bind c (fun _ => k))
  (at level 100, right associativity).

(** ** The class [threadsafe_stack<T>] *)
Module threadsafe_stack.
Section class.
Context {T : Type}.
(** The state a [T] is left in after it has been moved from. *)
Context (moved_from : T → T).

Record t : Type := mk {
  data : list T;            (* std::stack<T> data; *)
  m : shared_mutex.t        (* mutable std::shared_mutex m; *)
}.

Definition set_data (d : list T) (s : t) : t := mk d (m s).
Definition set_m (mx : shared_mutex.t) (s : t) : t := mk (data s) mx.

(** Member functions run in the state monad over the object. *)
Definition M (A : Type) : Type := stm t A.

(** [std::scoped_lock lock(m);] and the destructor of [lock]. *)
Definition scoped_lock : M unit := fun s =>
  match shared_mutex.lock (m s) with
  | Some mx => Returns () (set_m mx s)
  | None => Blocks
  end.

Definition scoped_unlock : M unit := fun s =>
  Returns () (set_m (shared_mutex.unlock (m s)) s).

(** [std::shared_lock lock(m);] and the destructor of [lock]. *)
Definition shared_lock : M unit := fun s =>
  match shared_mutex.lock_shared (m s) with
  | Some mx => Returns () (set_m mx s)
  | None => Blocks
  end.

Definition shared_unlock : M unit := fun s =>
  Returns () (set_m (shared_mutex.unlock_shared (m s)) s).

(** The statements on [data]. *)
Definition data_empty : M bool := fun s =>
  Returns (std_stack.empty (data s)) s.

Definition data_push (x : T) : M unit := fun s =>
  Returns () (set_data (std_stack.push x (data s)) s).

Definition data_emplace (x : T) : M unit := fun s =>
  Returns () (set_data (std_stack.emplace x (data s)) s).

(** [std::move(data.top())] consumed by a move constructor or a move
    assignment: the value of the top element is handed over and the
    element itself is left moved-from. *)
Definition data_move_top : M T := fun s =>
  match std_stack.top (data s) with
  | Some x =>
      match std_stack.set_top (moved_from x) (data s) with
      | Some d => Returns x (set_data d s)
      | None => Undefined
      end
  | None => Undefined
  end.

Definition data_pop : M unit := fun s =>
  match std_stack.pop (data s) with
  | Some d => Returns () (set_data d s)
  | None => Undefined
  end.

(** [threadsafe_stack() noexcept = default;] *)
Definition new : t := mk [] shared_mutex.unlocked.

(** [void push(T new_value)] *)
Definition push (new_value : T) : M unit :=
  scoped_lock ;–
  data_push new_value ;–
  scoped_unlock.

(** [void emplace(T&& new_value)] *)
Definition emplace (new_value : T) : M unit :=
  scoped_lock ;–
  data_emplace new_value ;–
  scoped_unlock.

(** [std::optional<std::shared_ptr<T>> pop()] *)
Definition pop : M (option (shared_ptr T)) :=
  scoped_lock ;–
  e ←– data_empty ;
  if e then
    scoped_unlock ;– ret None
  else
    x ←– data_move_top ;
    let res := make_shared x in
    data_pop ;–
    scoped_unlock ;– ret (Some res).

(** [std::optional<T> pop(T& value)]. The caller's object behind
    [value] is an argument, and its content after the call is the
    second component of the result. [return value;] copies out of the
    lvalue reference, so [value] keeps what was assigned to it. *)
Definition pop_ref (value : T) : M (option T * T) :=
  scoped_lock ;–
  e ←– data_empty ;
  if e then
    scoped_unlock ;– ret (None, value)
  else
    x ←– data_move_top ;
    let value := x in
    data_pop ;–
    scoped_unlock ;– ret (Some value, value).

(** [bool empty() const noexcept] *)
Definition empty : M bool :=
  shared_lock ;–
  e ←– data_empty ;
  shared_unlock ;– ret e.

(** The copy constructor [threadsafe_stack(const threadsafe_stack& other)],
    run on the source object: it answers the new object and leaves the
    source. The new object's own mutex is default-initialised, and its
    [data], default-constructed, is then assigned a copy of
    [other.data]. *)
Definition copy (other : t) : outcome t t :=
  match shared_lock other with
  | Returns _ other1 =>
      let this := set_data (data other1) new in
      match shared_unlock other1 with
      | Returns _ other2 => Returns this other2
      | Blocks => Blocks
      | Undefined => Undefined
      end
  | Blocks => Blocks
  | Undefined => Undefined
  end.

(** *** Calls from a single thread

    A client holds one object of type [T] (the argument of [pop(T&)])
    and issues calls one after the other. *)
Inductive call : Type :=
| call_push (v : T)
| call_emplace (v : T)
| call_pop
| call_pop_ref
| call_empty.

Inductive result : Type :=
| res_void
| res_ptr (r : option (shared_ptr T))
| res_val (r : option T)
| res_bool (b : bool).

Definition run_call (c : call) (value : T) : M (result * T) :=
  match c with
  | call_push v => push v ;– ret (res_void, value)
  | call_emplace v => emplace v ;– ret (res_void, value)
  | call_pop => r ←– pop ; ret (res_ptr r, value)
  | call_pop_ref => rv ←– pop_ref value ; ret (res_val rv.1, rv.2)
  | call_empty => b ←– empty ; ret (res_bool b, value)
  end.

Fixpoint run (cs : list call) (value : T) : M (list result * T) :=
  match cs with
  | [] => ret ([], value)
  | c :: cs' =>
      rv ←– run_call c value ;
      rest ←– run cs' rv.2 ;
      ret (rv.1 :: rest.1, rest.2)
  end.

(** Calls that add an element, and results that took one away. *)
Definition is_push (c : call) : bool :=
  match c with call_push _ | call_emplace _ => true | _ => false end.

Definition is_popped (r : result) : bool :=
  match r with
  | res_ptr (Some _) | res_val (Some _) => true
  | _ => false
  end.

Definition pushes (cs : list call) : nat := length (filter is_push cs).
Definition pops (rs : list result) : nat := length (filter is_popped rs).

(** [n] calls of [pop()] in a row, with their results in order. *)
Fixpoint pop_n (n : nat) : M (list (option (shared_ptr T))) :=
  match n with
  | 0 => ret []
  | S n' => r ←– pop ; rs ←– pop_n n' ; ret (r :: rs)
  end.

(** [push] of each value of a list, first to last. *)
Fixpoint push_all (vs : list T) : M unit :=
  match vs with
  | [] => ret ()
  | v :: vs' => push v ;– push_all vs'
  end.
End class.
Arguments t : clear implicits.
Arguments M : clear implicits.
End threadsafe_stack.

(** ** Objects at addresses

    Two stacks that are alive at the same time are two objects. The store
    maps the address of each live [threadsafe_stack] to its state; a call
    on the object at [l] changes the store at [l] only, and a constructor
    takes storage that no live object occupies. *)
Module heap.
Section heap.
Context {T : Type}.
Context (moved_from : T → T).

Abbreviation addr := positive.
Abbreviation store := (gmap positive (threadsafe_stack.t T)).

(** A member function called on the object at [l]. *)
Definition on {A} (l : addr) (f : threadsafe_stack.M T A) : stm store A :=
  fun σ =>
    match σ !! l with
    | Some s =>
        match f s with
        | Returns a s' => Returns a (<[l:=s']> σ)
        | Blocks => Blocks
        | Undefined => Undefined
        end
    | None => Undefined
    end.

Definition alloc (s : threadsafe_stack.t T) : stm store addr :=
  fun σ => let l := fresh (dom σ) in Returns l (<[l:=s]> σ).

(** [threadsafe_stack<T> a;] *)
Definition construct : stm store addr :=
  alloc threadsafe_stack.new.

(** [threadsafe_stack<T> b(a);] with [a] the object at [other]. *)
Definition copy_construct (other : addr) : stm store addr :=
  fun σ =>
    match σ !! other with
    | Some so =>
        match threadsafe_stack.copy so with
        | Returns this so' => alloc this (<[other:=so']> σ)
        | Blocks => Blocks
        | Undefined => Undefined
        end
    | None => Undefined
    end.

(** The content of the object at [l], top first. *)
Definition contents (l : addr) (σ : store) : option (list T) :=
  threadsafe_stack.data <$> σ !! l.

(** [n] separate calls of [pop()] on the object at [l]. *)
Fixpoint pop_n_at (l : addr) (n : nat)
    : stm store (list (option (shared_ptr T))) :=
  match n with
  | 0 => ret []
  | S n' =>
      r ←– on l (threadsafe_stack.pop moved_from) ;
      rs ←– pop_n_at l n' ;
      ret (r :: rs)
  end.
End heap.
End heap.

(** ** Threads

    Client threads of one shared stack. A pusher runs
    [for (v : todo) s.push(v);], a popper runs
    [while (auto r = s.pop()) { T& x = **r; got.push_back(x); }]. A thread advances
    by one statement of the member function it is in: the lock, one
    operation on [data], the release of the lock. Any thread that can
    advance may be the next to do so. *)
Module conc.
Section conc.
Context {T : Type}.
Context (moved_from : T → T).

Import threadsafe_stack.

Inductive thread : Type :=
(* between two calls; the next one is [push] of the head of [todo] *)
| pusher_idle (todo : list T)
(* in [push(v)], lock held, before [data.push] *)
| pusher_locked (v : T) (todo : list T)
(* in [push], after [data.push], lock held *)
| pusher_unlock (todo : list T)
(* between two calls; the next one is [pop()] *)
| popper_idle (got : list T)
(* in [pop], lock held, before [if (data.empty())] *)
| popper_locked (got : list T)
(* in [pop], [data.empty()] was false *)
| popper_nonempty (got : list T)
(* in [pop], [res] made, before [data.pop()] *)
| popper_moved (got : list T) (res : shared_ptr T)
(* in [pop], at [return], lock held *)
| popper_return (got : list T) (r : option (shared_ptr T))
(* [pop] answered [std::nullopt]; the loop is over *)
| popper_done (got : list T).

(** One statement of a thread; [None] when the thread has finished. *)
Definition thread_step (th : thread) : option (M T thread) :=
  match th with
  | pusher_idle [] => None
  | pusher_idle (v :: todo) =>
      Some (scoped_lock ;– ret (pusher_locked v todo))
  | pusher_locked v todo =>
      Some (data_push v ;– ret (pusher_unlock todo))
  | pusher_unlock todo =>
      Some (scoped_unlock ;– ret (pusher_idle todo))
  | popper_idle got =>
      Some (scoped_lock ;– ret (popper_locked got))
  | popper_locked got =>
      Some (e ←– data_empty ;
            ret (if e then popper_return got None else popper_nonempty got))
  | popper_nonempty got =>
      Some (x ←– data_move_top moved_from ;
            ret (popper_moved got (make_shared x)))
  | popper_moved got res =>
      Some (data_pop ;– ret (popper_return got (Some res)))
  | popper_return got r =>
      Some (scoped_unlock ;–
            ret (match r with
                 | Some p => popper_idle (got ++ [deref p])
                 | None => popper_done got
                 end))
  | popper_done got => None
  end.

Record config : Type := mk_config {
  stack : threadsafe_stack.t T;
  pool : list thread
}.

(** Thread [i] is given the processor for one statement. It is not
    schedulable ([Blocks]) when it does not exist, has finished, or
    waits for the mutex. *)
Definition sched_step (i : nat) : stm config unit := fun c =>
  match pool c !! i with
  | Some th =>
      match thread_step th with
      | Some body =>
          match body (stack c) with
          | Returns th' s' => Returns () (mk_config s' (<[i:=th']> (pool c)))
          | Blocks => Blocks
          | Undefined => Undefined
          end
      | None => Blocks
      end
  | None => Blocks
  end.

(** An execution: the threads named by the schedule advance in turn. *)
Fixpoint exec (sched : list nat) : stm config unit :=
  match sched with
  | [] => ret ()
  | i :: sched' => sched_step i ;– exec sched'
  end.

Definition finished (th : thread) : bool :=
  match th with
  | pusher_idle [] | popper_done _ => true
  | _ => false
  end.

Definition all_finished (c : config) : bool := forallb finished (pool c).

(** The values a thread has still to push, and the values it has
    popped. *)
Definition todo_of (th : thread) : list T :=
  match th with
  | pusher_idle todo | pusher_unlock todo => todo
  | pusher_locked v todo => v :: todo
  | _ => []
  end.

Definition got_of (th : thread) : list T :=
  match th with
  | popper_idle got | popper_locked got | popper_nonempty got
  | popper_done got | popper_return got None => got
  | popper_moved got res | popper_return got (Some res) => got ++ [deref res]
  | _ => []
  end.

Definition popped (c : config) : list T := concat (got_of <$> pool c).

(** [K] pusher threads, one per list of values, and [n] popper
    threads. *)
Definition pushers (vss : list (list T)) : list thread := pusher_idle <$> vss.
Definition poppers (n : nat) : list thread := replicate n (popper_idle []).

(** *** Bookkeeping for the proofs *)

(** The thread is inside a member function and holds the lock. *)
Definition inside (th : thread) : nat :=
  match th with
  | pusher_locked _ _ | pusher_unlock _
  | popper_locked _ | popper_nonempty _ | popper_moved _ _
  | popper_return _ _ => 1
  | _ => 0
  end.

(** The thread has moved the top element out and not yet removed it. *)
Definition hollow (th : thread) : nat :=
  match th with popper_moved _ _ => 1 | _ => 0 end.

(** The thread relies on [data] being non-empty. *)
Definition needs_top (th : thread) : nat :=
  match th with popper_nonempty _ | popper_moved _ _ => 1 | _ => 0 end.

(** The thread has seen the stack empty. *)
Definition saw_empty (th : thread) : nat :=
  match th with popper_return _ None | popper_done _ => 1 | _ => 0 end.

Definition is_popper (th : thread) : bool :=
  match th with
  | pusher_idle _ | pusher_locked _ _ | pusher_unlock _ => false
  | _ => true
  end.

Definition total (f : thread → nat) (c : config) : nat :=
  sum_list_with f (pool c).

Definition held (mx : shared_mutex.t) : nat :=
  match mx with shared_mutex.unlocked => 0 | _ => 1 end.

(** What every execution maintains, with [all] the elements in the
    system: the mutex is held exactly when one thread is inside a member
    function; a thread that is about to use [data.top()] finds an
    element; the elements still to be pushed, those in the stack (less
    a top that a popper has moved out) and those popped are [all]. *)
Definition inv (all : list T) (c : config) : Prop :=
  held (m (stack c)) = total inside c ∧
  total needs_top c ≤ length (data (stack c)) ∧
  concat (todo_of <$> pool c)
    ++ drop (total hollow c) (data (stack c))
    ++ popped c ≡ₚ all.

(** While only poppers run, a stack seen empty stays empty. *)
Definition draining (c : config) : Prop :=
  forallb is_popper (pool c) = true ∧
  (0 < total saw_empty c → data (stack c) = []).

(** A bound on the number of statements still to be executed. *)
Definition weight (th : thread) : nat :=
  match th with
  | pusher_idle todo => 8 * length todo
  | pusher_locked _ todo => 8 * length todo + 7
  | pusher_unlock todo => 8 * length todo + 1
  | popper_idle _ => 3
  | popper_locked _ => 2
  | popper_nonempty _ => 1
  | popper_moved _ _ => 0
  | popper_return _ (Some _) => 4
  | popper_return _ None => 1
  | popper_done _ => 0
  end.

Definition fuel (c : config) : nat :=
  5 * length (data (stack c)) + total weight c.
End conc.
End conc.

(** ** Whole calls

    The same threads and pools, advancing by one whole call of a member
    function at a time: a pusher runs [push] on its next value, a popper
    runs [pop()] and leaves its loop when the result is absent. This is
    what the client loops are in terms of the member functions
    themselves; the statement-by-statement executions of [conc] are
    related to it by [settle], which lets the thread that is inside a
    member function finish its call. *)
Module atomic.
Section atomic.
Context {T : Type}.
Context (moved_from : T → T).

Import threadsafe_stack conc.

(** One call of a thread; [None] when the thread is not between two
    calls or has finished. *)
Definition call_step (th : @thread T) : option (M T (@thread T)) :=
  match th with
  | pusher_idle (v :: todo) =>
      Some (push v ;– ret (pusher_idle todo))
  | popper_idle got =>
      Some (r ←– pop moved_from ;
            ret (match r with
                 | Some p => popper_idle (got ++ [deref p])
                 | None => popper_done got
                 end))
  | _ => None
  end.

(** Thread [i] makes its next call. *)
Definition sched_call (i : nat) : stm (@config T) unit := fun c =>
  match pool c !! i with
  | Some th =>
      match call_step th with
      | Some body =>
          match body (stack c) with
          | Returns th' s' => Returns () (mk_config s' (<[i:=th']> (pool c)))
          | Blocks => Blocks
          | Undefined => Undefined
          end
      | None => Blocks
      end
  | None => Blocks
  end.

(** The threads named by [calls] make one call each, in turn. *)
Fixpoint exec (calls : list nat) : stm (@config T) unit :=
  match calls with
  | [] => ret ()
  | i :: calls' => sched_call i ;– exec calls'
  end.



End atomic.
End atomic.

(** An instance to run the code on: elements of type [nat], a moved-from
    element reading [0]. *)
Definition nat_moved_from (x : nat) : nat := 0.

(** Two pushers with the values 1, 2 and 3, then two poppers, with one
    schedule for each phase and the states the schedules lead to. *)
Definition demo_vss : list (list nat) := [[1; 2]; [3]].

Definition demo_sched1 : list nat := [0; 0; 0; 1; 1; 1; 0; 0; 0].

Definition demo_c1 : @conc.config nat :=
  conc.mk_config
    (threadsafe_stack.mk [2; 3; 1] shared_mutex.unlocked)
    [conc.pusher_idle []; conc.pusher_idle []].

Definition demo_sched2 : list nat :=
  [0; 0; 0; 0; 0; 1; 1; 1; 1; 1; 0; 0; 0; 0; 0; 1; 1; 1; 0; 0; 0].

Definition demo_c2 : @conc.config nat :=
  conc.mk_config
    (threadsafe_stack.mk [] shared_mutex.unlocked)
    [conc.popper_done [2; 1]; conc.popper_done [3]].

(** A store with one stack, holding 1, 2, 3 with 3 on top. *)
Definition demo_store : gmap positive (threadsafe_stack.t nat) :=
  {[ 1%positive := threadsafe_stack.mk [3; 2; 1] shared_mutex.unlocked ]}.

(** Two pushers and one popper at work at the same time on a stack that
    holds 7: a schedule that stops while thread 0 is inside [push], and
    one that runs all three threads to the end. *)
Definition demo_mixed_start : @conc.config nat :=
  conc.mk_config
    (threadsafe_stack.mk [7] shared_mutex.unlocked)
    (conc.pushers demo_vss ++ conc.poppers 1).

Definition demo_mixed_prefix : list nat := [0; 0].

Definition demo_mixed_mid : @conc.config nat :=
  conc.mk_config
    (threadsafe_stack.mk [1; 7] shared_mutex.locked_exclusive)
    [conc.pusher_unlock [2]; conc.pusher_idle [3]; conc.popper_idle []].

Definition demo_mixed_sched : list nat :=
  [0; 0; 0; 2; 2; 2; 2; 2; 1; 1; 1; 0; 0; 0;
   2; 2; 2; 2; 2; 2; 2; 2; 2; 2; 2; 2; 2; 2; 2; 2; 2; 2].

Definition demo_mixed_end : @conc.config nat :=
  conc.mk_config
    (threadsafe_stack.mk [] shared_mutex.unlocked)
    [conc.pusher_idle []; conc.pusher_idle []; conc.popper_done [1; 2; 3; 7]].


(** The results of [n] calls of [pop()] on a stack that holds [d]. *)
Definition pop_results {T} (n : nat) (d : list T) : list (option (shared_ptr T)) :=
  ((λ x, Some (make_shared x)) <$> take n d) ++ replicate (n - length d) None.

(** * Single-threaded behaviour *)
Section sequential.
Context {T : Type}.
Context (moved_from : T → T).

Import threadsafe_stack.

Abbreviation quiet d := (mk d shared_mutex.unlocked).

(** A stack nobody is inside of is determined by its content. *)
Lemma quiet_eta (s : t T) : m s = shared_mutex.unlocked → s = quiet (data s).
Proof. destruct s as [d mx]; simpl; intros ->; reflexivity. Qed.

(** ** Each member function on a quiet stack *)

Lemma push_quiet v (d : list T) : push v (quiet d) = Returns () (quiet (v :: d)).
Proof. reflexivity. Qed.

Lemma emplace_quiet v (d : list T) : emplace v (quiet d) = Returns () (quiet (v :: d)).
Proof. reflexivity. Qed.

Lemma pop_quiet_nil : pop moved_from (quiet []) = Returns None (quiet []).
Proof. reflexivity. Qed.

Lemma pop_quiet_cons x (d : list T) :
  pop moved_from (quiet (x :: d)) = Returns (Some (make_shared x)) (quiet d).
Proof. reflexivity. Qed.

Lemma pop_ref_quiet_nil value :
  pop_ref moved_from value (quiet []) = Returns (None, value) (quiet []).
Proof. reflexivity. Qed.

Lemma pop_ref_quiet_cons value x (d : list T) :
  pop_ref moved_from value (quiet (x :: d)) = Returns (Some x, x) (quiet d).
Proof. reflexivity. Qed.

Lemma empty_quiet (d : list T) :
  empty (quiet d) = Returns (std_stack.empty d) (quiet d).
Proof. reflexivity. Qed.

Lemma push_all_quiet (vs d : list T) :
  push_all vs (quiet d) = Returns () (quiet (reverse vs ++ d)).
Proof.
  revert d; induction vs as [|v vs IH]; intros d; simpl.
  - reflexivity.
  - unfold bind. rewrite push_quiet, IH, reverse_cons, <- app_assoc.
    reflexivity.
Qed.

Lemma pop_n_quiet n (d : list T) :
  pop_n moved_from n (quiet d) = Returns (pop_results n d) (quiet (drop n d)).
Proof.
  revert d; induction n as [|n IH]; intros d; simpl.
  - unfold pop_results. rewrite take_0, drop_0. reflexivity.
  - unfold bind. destruct d as [|x d].
    + rewrite pop_quiet_nil, IH.
      unfold pop_results. rewrite !take_nil, drop_nil. simpl.
      rewrite Nat.sub_0_r. reflexivity.
    + rewrite pop_quiet_cons, IH. reflexivity.
Qed.

(** Every call on a quiet stack returns, leaves the stack quiet, and
    changes the number of elements by what it pushed or popped. *)
Lemma run_call_quiet c value (d : list T) :
  ∃ r value' d',
    run_call moved_from c value (quiet d) = Returns (r, value') (quiet d') ∧
    length d' + (if is_popped r then 1 else 0)
      = length d + (if is_push c then 1 else 0).
Proof.
  destruct c as [v|v| | |]; simpl; unfold bind.
  - rewrite push_quiet. eexists _, _, _; split; [reflexivity|simpl; lia].
  - rewrite emplace_quiet. eexists _, _, _; split; [reflexivity|simpl; lia].
  - destruct d as [|x d].
    + rewrite pop_quiet_nil. eexists _, _, _; split; [reflexivity|simpl; lia].
    + rewrite pop_quiet_cons. eexists _, _, _; split; [reflexivity|simpl; lia].
  - destruct d as [|x d].
    + rewrite pop_ref_quiet_nil. eexists _, _, _; split; [reflexivity|simpl; lia].
    + rewrite pop_ref_quiet_cons. eexists _, _, _; split; [reflexivity|simpl; lia].
  - rewrite empty_quiet. eexists _, _, _; split; [reflexivity|simpl; lia].
Qed.

Lemma run_quiet cs value (d : list T) :
  ∃ rs value' d',
    run moved_from cs value (quiet d) = Returns (rs, value') (quiet d') ∧
    length d' + pops rs = length d + pushes cs.
Proof.
  revert value d; induction cs as [|c cs IH]; intros value d; simpl.
  - eexists [], value, d. split; [reflexivity|]. unfold pops, pushes; simpl; lia.
  - destruct (run_call_quiet c value d) as (r & value1 & d1 & Hc & Hn).
    destruct (IH value1 d1) as (rs & value2 & d2 & Hr & Hm).
    exists (r :: rs), value2, d2. split.
    + unfold bind. rewrite Hc. simpl. rewrite Hr. reflexivity.
    + unfold pops, pushes in *. rewrite !filter_cons.
      destruct (is_popped r), (is_push c); simpl in *;
        repeat case_decide; simpl; try lia; try done.
Qed.

(** ** The specification, single-threaded part *)

(** C1. LIFO order: after [push] of v1, ..., vn into a freshly
    constructed stack, with no [pop] in between, the next n calls of
    [pop()] return present results that carry vn, ..., v1 in this order,
    and call number n+1 returns an absent result. All calls return. *)
Theorem lifo_order (vs : list T) :
  ∃ s, push_all vs new = Returns () s ∧
       pop_n moved_from (S (length vs)) s
         = Returns (((λ v, Some (make_shared v)) <$> reverse vs) ++ [None]) new.
Proof.
  exists (quiet (reverse vs ++ [])). split; [apply push_all_quiet|].
  rewrite pop_n_quiet, app_nil_r. unfold pop_results, new.
  rewrite take_ge, drop_ge by (rewrite length_reverse; lia).
  rewrite length_reverse.
  replace (S (length vs) - length vs) with 1 by lia.
  reflexivity.
Qed.

(** C2. On an empty stack [pop()] and [pop(value)] return an absent
    result (they neither wait nor run into undefined behaviour, and
    the code has no [throw]) and leave the stack as it was; the same
    call made a second time gives the same absent result. *)
Theorem pop_empty_absent (s : t T) (value : T) :
  m s = shared_mutex.unlocked →
  std_stack.empty (data s) = true →
  pop moved_from s = Returns None s ∧
  pop_ref moved_from value s = Returns (None, value) s ∧
  (r1 ←– pop moved_from ; r2 ←– pop moved_from ; ret (r1, r2)) s
    = Returns (None, None) s ∧
  (r1 ←– pop_ref moved_from value ;
   r2 ←– pop_ref moved_from r1.2 ;
   ret (r1.1, r2.1)) s
    = Returns (None, None) s.
Proof.
  intros Hm He. rewrite (quiet_eta s Hm).
  destruct (data s) as [|x d]; [|discriminate].
  repeat split; reflexivity.
Qed.

(** C3. [empty()] returns true on a freshly default-constructed stack.
    In every state reached from it by calls of the member functions,
    [empty()] returns true exactly when as many calls of [pop] have
    returned a present result as there were calls of [push] and
    [emplace]; the pops never outnumber the pushes, so after one more
    push [empty()] returns false. *)
Theorem empty_tracks_balance :
  empty (@new T) = Returns true new ∧
  ∀ (cs : list call) (value : T),
    ∃ rs value' s,
      run moved_from cs value new = Returns (rs, value') s ∧
      pops rs ≤ pushes cs ∧
      empty s = Returns (bool_decide (pops rs = pushes cs)) s ∧
      ∀ v, ∃ s', push v s = Returns () s' ∧ empty s' = Returns false s'.
Proof.
  split; [reflexivity|]. intros cs value.
  destruct (run_quiet cs value []) as (rs & value' & d & Hrun & Hlen).
  exists rs, value', (quiet d). simpl in Hlen.
  split; [exact Hrun|]. split; [lia|]. split.
  - rewrite empty_quiet. f_equal.
    destruct d as [|x d]; simpl in *.
    + rewrite bool_decide_eq_true_2 by lia. reflexivity.
    + rewrite bool_decide_eq_false_2 by lia. reflexivity.
  - intros v. exists (quiet (v :: d)). split; reflexivity.
Qed.

(** C4. On a stack that is not empty [pop(value)] hands the former top
    element both to the caller's [value] and to the returned optional,
    and removes it; on any stack the returned optional is present
    exactly when the stack was not empty. *)
Theorem pop_ref_moves_top (s : t T) (value : T) :
  m s = shared_mutex.unlocked →
  ∃ r value' s',
    pop_ref moved_from value s = Returns (r, value') s' ∧
    (is_Some r ↔ std_stack.empty (data s) = false) ∧
    ∀ x, std_stack.top (data s) = Some x →
         r = Some x ∧ value' = x ∧ std_stack.pop (data s) = Some (data s').
Proof.
  intros Hm. rewrite (quiet_eta s Hm). destruct (data s) as [|x d]; simpl.
  - exists None, value, (quiet []). split; [reflexivity|]. split.
    + split; [intros [? ?]; discriminate|discriminate].
    + discriminate.
  - exists (Some x), x, (quiet d). split; [reflexivity|]. split.
    + split; [reflexivity|eauto].
    + intros y [= <-]. repeat split.
Qed.

(** C6. [push(v)] makes the stack one element larger and puts [v] on
    top of what was there. On a stack that is not empty [pop()] returns
    the top element, leaves exactly the elements below it, one fewer
    than before, and every later sequence of pops sees those elements
    only. *)
Theorem push_pop_size (s : t T) :
  m s = shared_mutex.unlocked →
  (∀ v, ∃ s',
      push v s = Returns () s' ∧
      std_stack.size (data s') = S (std_stack.size (data s)) ∧
      std_stack.top (data s') = Some v ∧
      std_stack.pop (data s') = Some (data s)) ∧
  (std_stack.empty (data s) = false →
   ∃ x s',
      pop moved_from s = Returns (Some (make_shared x)) s' ∧
      std_stack.top (data s) = Some x ∧
      std_stack.pop (data s) = Some (data s') ∧
      S (std_stack.size (data s')) = std_stack.size (data s) ∧
      ∀ n, ∃ s'',
        pop_n moved_from n s' = Returns (pop_results n (data s')) s'').
Proof.
  intros Hm. rewrite (quiet_eta s Hm). split.
  - intros v. exists (quiet (v :: data s)). repeat split.
  - destruct (data s) as [|x d]; [discriminate|]. intros _.
    exists x, (quiet d). repeat split.
    intros n. eexists. apply pop_n_quiet.
Qed.

(** C7. [emplace(v)] and [push(v)] have the same outcome on every
    stack, and so the same outcome of every sequence of calls made
    afterwards. *)
Theorem emplace_is_push (s : t T) (v : T) :
  emplace v s = push v s ∧
  ∀ (cs : list call) (value : T),
    (emplace v ;– run moved_from cs value) s
      = (push v ;– run moved_from cs value) s.
Proof.
  assert (H : emplace v s = push v s) by reflexivity.
  split; [exact H|]. intros cs value. unfold bind. rewrite H. reflexivity.
Qed.

(** C10. On an empty stack [pop(value)] leaves the caller's [value]
    as it was, and the stack too. *)
Theorem pop_ref_empty_keeps_value (s : t T) (value : T) :
  m s = shared_mutex.unlocked →
  std_stack.empty (data s) = true →
  ∃ r, pop_ref moved_from value s = Returns (r, value) s ∧ r = None.
Proof.
  intros Hm He. rewrite (quiet_eta s Hm).
  destruct (data s) as [|x d]; [|discriminate].
  exists None. split; reflexivity.
Qed.
End sequential.

(** * Copies are separate objects *)
Section copies.
Context {T : Type}.
Context (moved_from : T → T).

Import threadsafe_stack.

Abbreviation quiet d := (mk d shared_mutex.unlocked).

(** The copy constructor reads under a shared lock, which the source
    grants unless a writer holds it, and gives the lock back. *)
Lemma copy_returns (A : t T) :
  m A ≠ shared_mutex.locked_exclusive →
  copy A = Returns (quiet (data A)) A.
Proof.
  destruct A as [d [| |n]]; intros H; try reflexivity. by destruct H.
Qed.

Lemma on_pop_quiet (σ : gmap positive (t T)) (l : positive) (d : list T) :
  σ !! l = Some (quiet d) →
  heap.on l (pop moved_from) σ =
    Returns (default None (Some ∘ make_shared <$> head d))
            (<[l:=quiet (tail d)]> σ).
Proof.
  intros Hl. unfold heap.on. rewrite Hl. destruct d as [|x d]; reflexivity.
Qed.

Lemma pop_n_at_quiet n (σ : gmap positive (t T)) (l : positive) (d : list T) :
  σ !! l = Some (quiet d) →
  heap.pop_n_at moved_from l n σ =
    Returns (pop_results n d) (<[l:=quiet (drop n d)]> σ).
Proof.
  revert σ d; induction n as [|n IH]; intros σ d Hl; simpl.
  - unfold ret, pop_results. rewrite take_0, drop_0, insert_id by done.
    reflexivity.
  - unfold bind. rewrite (on_pop_quiet σ l d Hl).
    rewrite (IH _ (tail d)) by apply lookup_insert_eq.
    rewrite insert_insert_eq. destruct d as [|x d]; simpl.
    + unfold pop_results. rewrite !take_nil, drop_nil. simpl.
      rewrite Nat.sub_0_r. reflexivity.
    + reflexivity.
Qed.

(** C5. Copy-constructing B from A gives a new object whose content is
    A's, in the same order, so that pops on B return A's elements top
    first; A is as it was after the construction and after every
    number of pops on B. *)
Theorem copy_is_independent (σ : gmap positive (t T)) (a : positive) (A : t T) :
  σ !! a = Some A →
  m A ≠ shared_mutex.locked_exclusive →
  ∃ b σ',
    heap.copy_construct a σ = Returns b σ' ∧
    b ≠ a ∧
    σ' !! a = Some A ∧
    heap.contents b σ' = Some (data A) ∧
    ∀ n, ∃ σ'',
      heap.pop_n_at moved_from b n σ' = Returns (pop_results n (data A)) σ'' ∧
      σ'' !! a = Some A ∧
      heap.contents b σ'' = Some (drop n (data A)).
Proof.
  intros Ha Hm.
  assert (Hfresh : fresh (dom σ) ≠ a).
  { intros E. apply (is_fresh (dom σ)). rewrite E. apply elem_of_dom; eauto. }
  exists (fresh (dom σ)), (<[fresh (dom σ):=quiet (data A)]> σ).
  split.
  { unfold heap.copy_construct, heap.alloc.
    rewrite Ha, (copy_returns A Hm), insert_id by done. reflexivity. }
  split; [exact Hfresh|].
  split; [rewrite lookup_insert_ne by done; exact Ha|].
  split; [unfold heap.contents; rewrite lookup_insert_eq; reflexivity|].
  intros n. eexists. split.
  { apply pop_n_at_quiet, lookup_insert_eq. }
  split.
  - rewrite !lookup_insert_ne by done. exact Ha.
  - unfold heap.contents. rewrite lookup_insert_eq. reflexivity.
Qed.
End copies.

(** * Threads sharing one stack *)
Section concurrent.
Context {T : Type}.
Context (moved_from : T → T).

Import threadsafe_stack conc.

Abbreviation thread := (@conc.thread T).
Abbreviation step := (sched_step moved_from).

(** ** The pool around the scheduled thread *)

Lemma pool_split (l : list thread) i th :
  l !! i = Some th →
  ∃ l1 l2, l = l1 ++ th :: l2 ∧ ∀ th', <[i:=th']> l = l1 ++ th' :: l2.
Proof.
  intros H. exists (take i l), (drop (S i) l). split.
  - symmetry. by apply take_drop_middle.
  - intros th'. apply insert_take_drop. by eapply lookup_lt_Some.
Qed.

(** A successful step, with the pool split around the thread that
    made it. *)
Lemma step_inv i (c c' : config) :
  step i c = Returns () c' →
  ∃ l1 l2 th th' body,
    pool c = l1 ++ th :: l2 ∧
    pool c' = l1 ++ th' :: l2 ∧
    thread_step moved_from th = Some body ∧
    body (stack c) = Returns th' (stack c').
Proof.
  unfold sched_step. destruct (pool c !! i) as [th|] eqn:Hi; [|discriminate].
  destruct (thread_step moved_from th) as [body|] eqn:Hb; [|discriminate].
  destruct (body (stack c)) as [th' s'| |] eqn:Hs; [|discriminate..].
  intros [= <-]. destruct (pool_split _ _ _ Hi) as (l1 & l2 & Hl & Hins).
  exists l1, l2, th, th', body. simpl. rewrite Hins. done.
Qed.

Lemma sum_list_with_le (f g : thread → nat) (l : list thread) :
  (∀ th, f th ≤ g th) → sum_list_with f l ≤ sum_list_with g l.
Proof.
  intros H. induction l as [|th l IH]; simpl; [lia|]. specialize (H th). lia.
Qed.

Lemma hollow_le_inside (l : list thread) :
  sum_list_with hollow l ≤ sum_list_with inside l.
Proof. apply sum_list_with_le. intros []; simpl; lia. Qed.

Lemma needs_top_le_inside (l : list thread) :
  sum_list_with needs_top l ≤ sum_list_with inside l.
Proof. apply sum_list_with_le. intros []; simpl; lia. Qed.

Lemma held_le_1 (mx : shared_mutex.t) : held mx ≤ 1.
Proof. destruct mx; simpl; lia. Qed.

Lemma scoped_lock_inv (s s' : t T) :
  scoped_lock s = Returns () s' →
  m s = shared_mutex.unlocked ∧ s' = set_m shared_mutex.locked_exclusive s.
Proof.
  unfold scoped_lock. destruct (m s) eqn:Hm; simpl; [|discriminate..].
  intros [= <-]. done.
Qed.

Lemma inv_step all i (c c' : config) :
  inv all c → step i c = Returns () c' → inv all c'.
Proof.
  intros (Hlock & Htop & Hel) Hstep.
  destruct (step_inv _ _ _ Hstep) as (l1 & l2 & th & th' & body & Hp & Hp' & Hb & Hs).
  destruct c as [s pl], c' as [s' pl']; simpl in *; subst pl pl'.
  unfold inv, total, popped in *; simpl in *.
  rewrite !fmap_app, !concat_app, !sum_list_with_app in *.
  rewrite !fmap_cons in *. simpl in Hlock, Htop, Hel |- *.
  pose proof (hollow_le_inside l1). pose proof (hollow_le_inside l2).
  pose proof (needs_top_le_inside l1). pose proof (needs_top_le_inside l2).
  pose proof (held_le_1 (m s)).
  clear Hstep.
  destruct th as [[|v todo]|v todo|todo|got|got|got|got res|got [res|]|got];
    simpl in Hb; simplify_eq;
    unfold bind, ret, scoped_unlock, data_push, data_empty, data_pop,
      data_move_top in Hs.
  all: try (destruct (scoped_lock s) as [[] s1| |] eqn:Hl; [|discriminate..];
            apply scoped_lock_inv in Hl as [Hm ->]; rewrite Hm in * ).
  all: try (destruct (data s) as [|x d] eqn:Hd; simpl in Hs; [discriminate|]; [idtac]).
  all: simpl in *; simplify_eq; simpl in *.
  all: assert (Hi1 : sum_list_with inside l1 = 0) by lia.
  all: assert (Hi2 : sum_list_with inside l2 = 0) by lia.
  all: assert (Hh1 : sum_list_with hollow l1 = 0) by lia.
  all: assert (Hh2 : sum_list_with hollow l2 = 0) by lia.
  all: assert (Hn1 : sum_list_with needs_top l1 = 0) by lia.
  all: assert (Hn2 : sum_list_with needs_top l2 = 0) by lia.
  all: rewrite ?Hi1, ?Hi2, ?Hh1, ?Hh2, ?Hn1, ?Hn2 in *; simpl in *.
  all: try (destruct (data s') as [|x d] eqn:Hd; simpl in * ).
  all: rewrite ?Hd; simpl.
  all: (split; [lia|split; [lia|]]).
  all: rewrite <- Hel, ?drop_0; solve_Permutation.
Qed.

(** A thread stays a pusher or a popper. *)
Lemma thread_step_kind (th th' : thread) body (s s' : t T) :
  thread_step moved_from th = Some body →
  body s = Returns th' s' →
  is_popper th' = is_popper th.
Proof.
  destruct th as [[|v todo]|v todo|todo|got|got|got|got res|got [res|]|got];
    simpl; intros Hb Hs; simplify_eq;
    unfold bind, ret, scoped_lock, scoped_unlock, data_push, data_empty,
      data_pop, data_move_top in Hs;
    repeat case_match; simplify_eq; reflexivity.
Qed.

Lemma kinds_step i (c c' : config) :
  step i c = Returns () c' →
  is_popper <$> pool c' = is_popper <$> pool c.
Proof.
  intros Hstep.
  destruct (step_inv _ _ _ Hstep) as (l1 & l2 & th & th' & body & -> & -> & Hb & Hs).
  rewrite !fmap_app, !fmap_cons. by rewrite (thread_step_kind _ _ _ _ _ Hb Hs).
Qed.

Lemma draining_step i (c c' : config) :
  draining c → step i c = Returns () c' → draining c'.
Proof.
  intros [Hk He] Hstep.
  destruct (step_inv _ _ _ Hstep) as (l1 & l2 & th & th' & body & Hp & Hp' & Hb & Hs).
  clear Hstep.
  destruct c as [s pl], c' as [s' pl']; simpl in *; subst pl pl'.
  unfold draining, total in *; simpl in *.
  rewrite forallb_app in Hk |- *. simpl in Hk |- *.
  rewrite (thread_step_kind _ _ _ _ _ Hb Hs).
  split; [exact Hk|].
  rewrite !sum_list_with_app in *. simpl in *.
  destruct th as [[|v todo]|v todo|todo|got|got|got|got res|got [res|]|got];
    simpl in Hb, Hk; simplify_eq;
    try (by rewrite ?andb_false_r in Hk);
    unfold bind, ret, scoped_lock, scoped_unlock, data_empty, data_pop,
      data_move_top in Hs.
  all: destruct (data s) as [|x d] eqn:Hd; simpl in *.
  all: repeat case_match; simplify_eq; simpl in *; try rewrite Hd.
  all: try done.
  all: intros; try (exfalso; by (discriminate He; lia)).
  all: try (apply He; lia).
Qed.

Lemma pushing_step i (c c' : config) :
  forallb (λ th, negb (is_popper th)) (pool c) = true →
  step i c = Returns () c' →
  forallb (λ th, negb (is_popper th)) (pool c') = true.
Proof.
  intros Hk Hstep.
  destruct (step_inv _ _ _ Hstep) as (l1 & l2 & th & th' & body & Hp & Hp' & Hb & Hs).
  rewrite Hp in Hk. rewrite Hp'. rewrite forallb_app in Hk |- *.
  simpl in Hk |- *. by rewrite (thread_step_kind _ _ _ _ _ Hb Hs).
Qed.

Lemma length_step i (c c' : config) :
  step i c = Returns () c' → length (pool c') = length (pool c).
Proof.
  intros Hstep.
  destruct (step_inv _ _ _ Hstep) as (l1 & l2 & th & th' & body & -> & -> & _).
  rewrite !length_app. reflexivity.
Qed.

(** ** Executions *)

Lemma exec_preserves (P : config → Prop) :
  (∀ i c c', P c → step i c = Returns () c' → P c') →
  ∀ sched c c', P c → exec moved_from sched c = Returns () c' → P c'.
Proof.
  intros HP sched. induction sched as [|i sched IH]; intros c c' Hc; simpl.
  - intros [= <-]. exact Hc.
  - unfold bind. destruct (step i c) as [[] c1| |] eqn:Hs; [|discriminate..].
    intros H. eapply IH; [|exact H]. eapply HP; eauto.
Qed.

Lemma exec_app sched1 sched2 (c c1 : config) :
  exec moved_from sched1 c = Returns () c1 →
  exec moved_from (sched1 ++ sched2) c = exec moved_from sched2 c1.
Proof.
  revert c; induction sched1 as [|i sched1 IH]; intros c; simpl.
  - intros [= <-]. reflexivity.
  - unfold bind. destruct (step i c) as [[] c'| |]; [|discriminate..].
    apply IH.
Qed.

(** ** The pools at the start and at the end *)

Lemma pushers_start (vss : list (list T)) :
  sum_list_with inside (pushers vss) = 0 ∧
  sum_list_with needs_top (pushers vss) = 0 ∧
  sum_list_with hollow (pushers vss) = 0 ∧
  concat (todo_of <$> pushers vss) = concat vss ∧
  forallb (λ th, negb (is_popper th)) (pushers vss) = true.
Proof.
  unfold pushers. induction vss as [|vs vss (? & ? & ? & ? & ?)]; simpl; [done|].
  repeat split; try done. by f_equal.
Qed.

Lemma poppers_start (n : nat) :
  sum_list_with inside (@poppers T n) = 0 ∧
  sum_list_with needs_top (@poppers T n) = 0 ∧
  sum_list_with hollow (@poppers T n) = 0 ∧
  sum_list_with saw_empty (@poppers T n) = 0 ∧
  concat (todo_of <$> @poppers T n) = [] ∧
  concat (got_of <$> @poppers T n) = [] ∧
  forallb is_popper (@poppers T n) = true.
Proof.
  unfold poppers. induction n as [|n (? & ? & ? & ? & ? & ? & ?)]; simpl; done.
Qed.

Lemma finished_pool (l : list thread) :
  forallb finished l = true →
  sum_list_with inside l = 0 ∧
  sum_list_with hollow l = 0 ∧
  concat (todo_of <$> l) = [].
Proof.
  induction l as [|th l IH]; simpl; [done|].
  intros [Hf Hl]%andb_true_iff. destruct (IH Hl) as (? & ? & ?).
  destruct th as [[|v todo]|v todo|todo|got|got|got|got res|got [res|]|got];
    try discriminate; simpl; done.
Qed.

Lemma pushers_got (l : list thread) :
  forallb (λ th, negb (is_popper th)) l = true → concat (got_of <$> l) = [].
Proof.
  induction l as [|th l IH]; csimpl; [done|].
  intros [Hf Hl]%andb_true_iff. rewrite (IH Hl).
  destruct th; try discriminate; reflexivity.
Qed.

Lemma poppers_saw_empty (l : list thread) :
  forallb finished l = true → forallb is_popper l = true →
  sum_list_with saw_empty l = length l.
Proof.
  induction l as [|th l IH]; simpl; [done|].
  intros [Hf Hl]%andb_true_iff [Hk Hkl]%andb_true_iff. rewrite (IH Hl Hkl).
  destruct th as [[|v todo]|v todo|todo|got|got|got|got res|got [res|]|got];
    try discriminate; reflexivity.
Qed.

Lemma held_0 (mx : shared_mutex.t) : held mx = 0 → mx = shared_mutex.unlocked.
Proof. destruct mx; simpl; [done|lia..]. Qed.

Lemma inv_pushers (vss : list (list T)) :
  inv (concat vss) (mk_config new (pushers vss)).
Proof.
  destruct (pushers_start vss) as (Hi & Hn & Hh & Ht & Hk).
  unfold inv, total, popped; simpl. rewrite Hi, Hn, Hh, Ht, (pushers_got _ Hk).
  split; [done|]. split; [lia|]. by rewrite app_nil_r.
Qed.

Lemma inv_poppers (s : t T) (n : nat) :
  m s = shared_mutex.unlocked → inv (data s) (mk_config s (poppers n)).
Proof.
  intros Hm. destruct (poppers_start n) as (Hi & Hn & Hh & _ & Ht & Hg & _).
  unfold inv, total, popped; simpl. rewrite Hm, Hi, Hn, Hh, Ht, Hg.
  split; [done|]. split; [lia|]. by rewrite app_nil_r.
Qed.

Lemma draining_poppers (s : t T) (n : nat) : draining (mk_config s (poppers n)).
Proof.
  destruct (poppers_start n) as (_ & _ & _ & Hs & _ & _ & Hk).
  unfold draining, total; simpl. rewrite Hs. split; [done|lia].
Qed.

(** The first phase: when every pusher is through, the stack is
    unlocked and holds the pushed values in some order. *)
Lemma push_phase (vss : list (list T)) sched (c1 : config) :
  exec moved_from sched (mk_config new (pushers vss)) = Returns () c1 →
  all_finished c1 = true →
  m (stack c1) = shared_mutex.unlocked ∧ data (stack c1) ≡ₚ concat vss.
Proof.
  intros Hex Hfin.
  assert (Hinv : inv (concat vss) c1).
  { eapply exec_preserves; [apply inv_step|apply inv_pushers|exact Hex]. }
  assert (Hk : forallb (λ th, negb (is_popper th)) (pool c1) = true).
  { eapply (exec_preserves (λ c, forallb _ (pool c) = true));
      [apply pushing_step| |exact Hex]. apply pushers_start. }
  destruct Hinv as (Hlock & _ & Hel).
  destruct (finished_pool _ Hfin) as (Hi & Hh & Ht).
  unfold total, popped in *. rewrite Hi in Hlock.
  rewrite Hh, Ht, (pushers_got _ Hk), drop_0, app_nil_r in Hel.
  split; [by apply held_0|exact Hel].
Qed.

(** The second phase: when every popper has left its loop, the stack
    is empty and the popped values are those it held. *)
Lemma pop_phase (s : t T) (n : nat) sched (c2 : config) :
  m s = shared_mutex.unlocked →
  0 < n →
  exec moved_from sched (mk_config s (poppers n)) = Returns () c2 →
  all_finished c2 = true →
  data (stack c2) = [] ∧ popped c2 ≡ₚ data s.
Proof.
  intros Hm Hn Hex Hfin.
  assert (Hinv : inv (data s) c2).
  { eapply exec_preserves; [apply inv_step|by apply inv_poppers|exact Hex]. }
  assert (Hdr : draining c2).
  { eapply exec_preserves; [apply draining_step|apply draining_poppers|exact Hex]. }
  assert (Hlen : length (pool c2) = n).
  { eapply (exec_preserves (λ c, length (pool c) = n)); [| |exact Hex].
    - intros i c c' <- Hs. by apply length_step in Hs.
    - apply length_replicate. }
  destruct Hinv as (_ & _ & Hel). destruct Hdr as [Hk He].
  destruct (finished_pool _ Hfin) as (_ & Hh & Ht).
  assert (Hd : data (stack c2) = []).
  { apply He. unfold total. rewrite (poppers_saw_empty _ Hfin Hk). lia. }
  split; [exact Hd|].
  unfold total in Hel. by rewrite Hh, Ht, Hd in Hel.
Qed.

(** ** No undefined behaviour, no deadlock, termination *)

Lemma step_defined all i (c : config) : inv all c → step i c ≠ Undefined.
Proof.
  intros (_ & Htop & _). unfold sched_step.
  destruct (pool c !! i) as [th|] eqn:Hi; [|done].
  pose proof (sum_list_with_in _ needs_top _ (list_elem_of_lookup_2 _ _ _ Hi)) as Hle.
  unfold total in Htop.
  destruct th as [[|v todo]|v todo|todo|got|got|got|got res|got [res|]|got];
    simpl; try done;
    unfold bind, ret, scoped_lock, scoped_unlock, data_push, data_empty,
      data_pop, data_move_top;
    simpl in Hle;
    destruct (data (stack c)) eqn:Hd; simpl in *; try lia;
    repeat case_match; done.
Qed.

Lemma forallb_false_lookup {A} (f : A → bool) (l : list A) :
  forallb f l = false → ∃ i x, l !! i = Some x ∧ f x = false.
Proof.
  induction l as [|x l IH]; simpl; [done|].
  destruct (f x) eqn:Hx; simpl.
  - intros (i & y & ? & ?)%IH. by exists (S i), y.
  - intros _. by exists 0, x.
Qed.

Lemma sum_pos_lookup {A} (f : A → nat) (l : list A) :
  0 < sum_list_with f l → ∃ i x, l !! i = Some x ∧ 0 < f x.
Proof.
  induction l as [|x l IH]; simpl; [lia|].
  destruct (decide (0 < f x)) as [Hx|Hx].
  - intros _. by exists 0, x.
  - intros H. destruct IH as (i & y & ? & ?); [lia|]. by exists (S i), y.
Qed.

(** While a thread has not finished, some thread can advance. *)
Lemma progress all (c : config) :
  inv all c → all_finished c = false → ∃ i c', step i c = Returns () c'.
Proof.
  intros (Hlock & Htop & _) Hfin. unfold total in *.
  destruct (decide (held (m (stack c)) = 0)) as [Hfree|Hheld].
  - (* the lock is free: an unfinished thread takes it *)
    apply forallb_false_lookup in Hfin as (i & th & Hi & Hth).
    pose proof (sum_list_with_in _ inside _ (list_elem_of_lookup_2 _ _ _ Hi)) as Hle.
    apply held_0 in Hfree as Hm.
    exists i. unfold sched_step. rewrite Hi.
    destruct th as [[|v todo]|v todo|todo|got|got|got|got res|got [res|]|got];
      simpl in *; try discriminate; try lia;
      unfold bind, ret, scoped_lock; rewrite Hm; simpl; eauto.
  - (* the lock is held: its holder advances *)
    destruct (sum_pos_lookup inside (pool c)) as (i & th & Hi & Hth); [lia|].
    pose proof (sum_list_with_in _ needs_top _ (list_elem_of_lookup_2 _ _ _ Hi)) as Hle.
    exists i. unfold sched_step. rewrite Hi.
    destruct th as [[|v todo]|v todo|todo|got|got|got|got res|got [res|]|got];
      simpl in *; try lia;
      unfold bind, ret, scoped_unlock, data_push, data_empty, data_pop,
        data_move_top;
      destruct (data (stack c)) eqn:Hd; simpl in *; try lia; eauto.
Qed.

(** Every step uses up fuel. *)
Lemma fuel_step i (c c' : config) : step i c = Returns () c' → fuel c' < fuel c.
Proof.
  intros Hstep.
  destruct (step_inv _ _ _ Hstep) as (l1 & l2 & th & th' & body & Hp & Hp' & Hb & Hs).
  clear Hstep.
  destruct c as [s pl], c' as [s' pl']; simpl in *; subst pl pl'.
  unfold fuel, total; simpl. rewrite !sum_list_with_app. simpl.
  destruct th as [[|v todo]|v todo|todo|got|got|got|got res|got [res|]|got];
    simpl in Hb; simplify_eq;
    unfold bind, ret, scoped_lock, scoped_unlock, data_push, data_empty,
      data_pop, data_move_top in Hs;
    destruct (data s) eqn:Hd; simpl in *;
    repeat case_match; simplify_eq; simpl; rewrite ?Hd; simpl; lia.
Qed.

(** Every state of an execution can be run to the end. *)
Lemma completion all (c : config) :
  inv all c →
  ∃ sched c', exec moved_from sched c = Returns () c' ∧ all_finished c' = true.
Proof.
  remember (fuel c) as k eqn:Hk. revert c Hk.
  induction k as [k IH] using lt_wf_ind. intros c -> Hinv.
  destruct (all_finished c) eqn:Hfin.
  - exists [], c. done.
  - destruct (progress all c Hinv Hfin) as (i & c1 & Hs).
    destruct (IH (fuel c1) (fuel_step _ _ _ Hs) c1 eq_refl) as (sched & c' & Hex & Hf).
    { eapply inv_step; eauto. }
    exists (i :: sched), c'. simpl. unfold bind. rewrite Hs. done.
Qed.

(** ** The threads run the member functions *)

(** A pusher alone on an unlocked stack: the three statements of one
    call do what [push] does. *)
Lemma pusher_runs_push v (todo d : list T) :
  ∃ s',
    push v (mk d shared_mutex.unlocked) = Returns () s' ∧
    exec moved_from [0; 0; 0]
         (mk_config (mk d shared_mutex.unlocked) [pusher_idle (v :: todo)])
      = Returns () (mk_config s' [pusher_idle todo]).
Proof. eexists. split; reflexivity. Qed.

(** A popper alone on an unlocked stack: the statements of one call do
    what [pop] does, and the loop goes on exactly when the result is
    present. *)
Lemma popper_runs_pop (got d : list T) :
  ∃ r s' sched,
    pop moved_from (mk d shared_mutex.unlocked) = Returns r s' ∧
    exec moved_from sched
         (mk_config (mk d shared_mutex.unlocked) [popper_idle got])
      = Returns ()
          (mk_config s'
             [match r with
              | Some p => popper_idle (got ++ [deref p])
              | None => popper_done got
              end]).
Proof.
  destruct d as [|x d].
  - exists None, (mk [] shared_mutex.unlocked), [0; 0; 0]. split; reflexivity.
  - exists (Some (make_shared x)), (mk d shared_mutex.unlocked), [0; 0; 0; 0; 0].
    split; reflexivity.
Qed.



(** ** Statement-level executions are sequences of whole calls *)











(** ** The specification, concurrent part *)


(** Such executions exist for all inputs: both phases can always be
    run to the end. *)
Lemma executions_exist (vss : list (list T)) (n : nat) :
  ∃ sched1 c1 sched2 c2,
    exec moved_from sched1 (mk_config new (pushers vss)) = Returns () c1 ∧
    all_finished c1 = true ∧
    exec moved_from sched2 (mk_config (stack c1) (poppers n)) = Returns () c2 ∧
    all_finished c2 = true.
Proof.
  destruct (completion _ _ (inv_pushers vss)) as (sched1 & c1 & Hex1 & Hfin1).
  destruct (push_phase _ _ _ Hex1 Hfin1) as [Hm _].
  destruct (completion _ _ (inv_poppers (stack c1) n Hm))
    as (sched2 & c2 & Hex2 & Hfin2).
  by exists sched1, c1, sched2, c2.
Qed.
End concurrent.

(** * The code on concrete inputs *)
Section examples.
Import threadsafe_stack.

Abbreviation present x := (Some (make_shared x)).

(** push(10), push(20), pop() → present(20); push(30); pop() →
    present(30); pop() → present(10); pop() → absent. *)
Example lifo_scenario :
  run nat_moved_from
      [call_push 10; call_push 20; call_pop; call_push 30;
       call_pop; call_pop; call_pop] 0 new
  = Returns ([res_void; res_void; res_ptr (present 20); res_void;
              res_ptr (present 30); res_ptr (present 10); res_ptr None], 0)
            new.
Proof. reflexivity. Qed.

(** [pop(value)] on 5 over 6, then on the empty stack. *)
Example pop_ref_scenario :
  run nat_moved_from [call_pop_ref; call_pop_ref; call_pop_ref; call_empty] 0
      (mk [5; 6] shared_mutex.unlocked)
  = Returns ([res_val (Some 5); res_val (Some 6); res_val None; res_bool true], 6)
            new.
Proof. reflexivity. Qed.

(** A writer inside [pop] keeps every other call out. *)
Example held_lock_blocks :
  pop nat_moved_from (mk [1] shared_mutex.locked_exclusive) = Blocks ∧
  @empty nat (mk [1] shared_mutex.locked_exclusive) = Blocks ∧
  @push nat 2 (mk [1] (shared_mutex.locked_shared 0)) = Blocks ∧
  @empty nat (mk [1] (shared_mutex.locked_shared 0))
    = Returns false (mk [1] (shared_mutex.locked_shared 0)).
Proof. repeat split. Qed.

(** Thread 1 cannot enter [push] while thread 0 is inside it. *)
Example second_pusher_waits :
  conc.exec nat_moved_from [0; 1] (conc.mk_config new (conc.pushers demo_vss))
  = Blocks.
Proof. reflexivity. Qed.

Example demo_phase1 :
  conc.exec nat_moved_from demo_sched1 (conc.mk_config new (conc.pushers demo_vss))
  = Returns () demo_c1.
Proof. reflexivity. Qed.

Example demo_phase2 :
  conc.exec nat_moved_from demo_sched2
            (conc.mk_config (conc.stack demo_c1) (conc.poppers 2))
  = Returns () demo_c2.
Proof. reflexivity. Qed.

(** ** Instances of the theorems *)

Lemma pop_empty_absent_witness :
  pop nat_moved_from new = Returns None new ∧
  pop_ref nat_moved_from 7 new = Returns (None, 7) new.
Proof.
  destruct (pop_empty_absent nat_moved_from new 7) as (H1 & H2 & _);
    [reflexivity..|].
  split; assumption.
Defined.

Lemma pop_ref_moves_top_witness :
  ∃ s', pop_ref nat_moved_from 0 (mk [5; 6] shared_mutex.unlocked)
        = Returns (Some 5, 5) s'.
Proof.
  destruct (pop_ref_moves_top nat_moved_from (mk [5; 6] shared_mutex.unlocked) 0)
    as (r & value' & s' & Hcall & _ & Htop); [reflexivity|].
  destruct (Htop 5) as (-> & -> & _); [reflexivity|].
  exists s'. exact Hcall.
Defined.

Lemma push_pop_size_witness :
  ∃ s', push 9 (mk [5; 6] shared_mutex.unlocked) = Returns () s' ∧
        std_stack.size (data s') = 3.
Proof.
  destruct (push_pop_size nat_moved_from (mk [5; 6] shared_mutex.unlocked))
    as [Hpush _]; [reflexivity|].
  destruct (Hpush 9) as (s' & Hcall & Hsize & _).
  exists s'. split; assumption.
Defined.

Lemma pop_ref_empty_keeps_value_witness :
  ∃ r, pop_ref nat_moved_from 7 new = Returns (r, 7) new ∧ r = None.
Proof.
  apply (pop_ref_empty_keeps_value nat_moved_from new 7); reflexivity.
Defined.

(** A holds 1, 2, 3 with 3 on top: four pops on its copy return 3, 2,
    1 and nothing, and A still holds 1, 2, 3. *)
Lemma copy_is_independent_witness :
  ∃ b σ' σ'',
    heap.copy_construct 1%positive demo_store = Returns b σ' ∧
    b ≠ 1%positive ∧
    heap.pop_n_at nat_moved_from b 4 σ'
      = Returns [present 3; present 2; present 1; None] σ'' ∧
    heap.contents 1%positive σ'' = Some [3; 2; 1] ∧
    heap.contents b σ'' = Some [].
Proof.
  destruct (copy_is_independent nat_moved_from demo_store 1%positive
              (mk [3; 2; 1] shared_mutex.unlocked))
    as (b & σ' & Hcopy & Hne & _ & _ & Hpops);
    [apply lookup_singleton_eq|discriminate|].
  destruct (Hpops 4) as (σ'' & Hcall & Ha & Hb).
  exists b, σ', σ''. repeat split; try assumption.
  unfold heap.contents. rewrite Ha. reflexivity.
Defined.


(** The calls behind the two demo schedules: 1, 3 and 2 are pushed in
    this order; popper 0 pops, popper 1 pops, popper 0 pops, and each
    then finds the stack empty. *)
Example demo_calls :
  atomic.exec nat_moved_from [0; 1; 0]
      (conc.mk_config new (conc.pushers demo_vss))
    = Returns () demo_c1 ∧
  atomic.exec nat_moved_from [0; 1; 0; 1; 0]
      (conc.mk_config (conc.stack demo_c1) (conc.poppers 2))
    = Returns () demo_c2.
Proof. split; reflexivity. Qed.
End examples.

(** * Further properties of the member functions *)
Section members.
Context {T : Type}.
Context (moved_from : T → T).

Import threadsafe_stack.

Abbreviation idle d := (mk d shared_mutex.unlocked).

(** X1. [empty()] is a reader: whenever no writer holds the mutex, also
    while other readers hold it, the call returns whether [data] is
    empty and leaves both [data] and the mutex as they were. It waits
    exactly when a writer holds the mutex. *)
Theorem empty_is_a_reader (s : t T) :
  (m s ≠ shared_mutex.locked_exclusive →
   empty s = Returns (std_stack.empty (data s)) s) ∧
  (empty s = Blocks ↔ m s = shared_mutex.locked_exclusive).
Proof.
  destruct s as [d [| |[|k]]]; (split; [intros H|split; intros H]);
    try done; by destruct H.
Qed.

(** X2. No member function runs into undefined behaviour, in any state
    of the object: [data.top()] and [data.pop()] are only reached behind
    the emptiness test. A writer ([push], [emplace], both forms of
    [pop]) waits exactly when the mutex is held in some mode, the reader
    [empty] exactly when it is held by a writer. *)
Theorem calls_are_defined (c : call) (value : T) (s : t T) :
  run_call moved_from c value s ≠ Undefined ∧
  (run_call moved_from c value s = Blocks ↔
   match c with
   | call_empty => m s = shared_mutex.locked_exclusive
   | _ => m s ≠ shared_mutex.unlocked
   end).
Proof.
  destruct s as [d mx].
  destruct c, mx as [| |[|k]], d as [|x d]; simpl; (split; [done|]);
    split; intros H; try done; by destruct H.
Qed.

Lemma run_call_restores_mutex (c : call) (value : T) (s s' : t T) r :
  run_call moved_from c value s = Returns r s' → m s' = m s.
Proof.
  destruct s as [d mx].
  destruct c, mx as [| |[|k]], d as [|x d]; intros H; compute in H;
    try discriminate; by simplify_eq.
Qed.

(** X3. The lock is released on every path: after any sequence of
    calls that return, the mutex is in the state it was in before the
    first call. *)
Theorem calls_release_the_lock (cs : list call) (value : T) (s s' : t T) r :
  run moved_from cs value s = Returns r s' → m s' = m s.
Proof.
  revert value s r; induction cs as [|c cs IH]; intros value s r; simpl.
  - by intros [= _ <-].
  - unfold bind at 1.
    destruct (run_call moved_from c value s) as [rv s1| |] eqn:Hc; [|done..].
    unfold bind.
    destruct (run moved_from cs rv.2 s1) as [rest s2| |] eqn:Hr; [|done..].
    intros [= _ <-]. rewrite (IH _ _ _ Hr). by eapply run_call_restores_mutex.
Qed.

(** X4. Round trip: what [push] or [emplace] puts in is what the next
    [pop()] or [pop(value)] returns, and the stack is then as it was
    before the push. *)
Theorem push_pop_round_trip (d : list T) (v value : T) :
  (push v ;– pop moved_from) (idle d) = Returns (Some (make_shared v)) (idle d) ∧
  (push v ;– pop_ref moved_from value) (idle d) = Returns (Some v, v) (idle d) ∧
  (emplace v ;– pop moved_from) (idle d) = Returns (Some (make_shared v)) (idle d) ∧
  (emplace v ;– pop_ref moved_from value) (idle d) = Returns (Some v, v) (idle d).
Proof. repeat split. Qed.

(** X5. The two forms of [pop] agree: in every state [pop()] does to
    the stack what [pop(value)] does and returns the same element,
    boxed; and [pop(value)] leaves in [value] the returned element if
    there is one, the old content of [value] otherwise. *)
Theorem pop_forms_agree (value : T) (s : t T) :
  pop moved_from s
    = (rv ←– pop_ref moved_from value ; ret (make_shared <$> rv.1)) s ∧
  ∀ r value' s',
    pop_ref moved_from value s = Returns (r, value') s' →
    value' = default value r.
Proof.
  destruct s as [d mx]. destruct mx as [| |k], d as [|x d]; simpl;
    (split; [reflexivity|]); intros r value' s' H; compute in H;
    try discriminate; by simplify_eq.
Qed.

Lemma run_call_moved_from (mf1 mf2 : T → T) (c : call) (value : T) (s : t T) :
  run_call mf1 c value s = run_call mf2 c value s.
Proof.
  destruct s as [d mx]. destruct c, mx as [| |k], d as [|x d]; reflexivity.
Qed.

(** X6. The element that [std::move(data.top())] leaves behind is never
    seen: whatever state a moved-from [T] is in, every sequence of calls
    has the same outcome, results and final stack. *)
Theorem moved_from_is_unobservable (mf1 mf2 : T → T)
    (cs : list call) (value : T) (s : t T) :
  run mf1 cs value s = run mf2 cs value s.
Proof.
  revert value s; induction cs as [|c cs IH]; intros value s; simpl.
  - reflexivity.
  - unfold bind at 1 3. rewrite (run_call_moved_from mf1 mf2).
    destruct (run_call mf2 c value s) as [rv s1| |]; [|done..].
    unfold bind. by rewrite IH.
Qed.

(** X7. Accounting: from any stack with a free mutex, every sequence of
    calls returns, and the size afterwards plus the number of pops that
    returned an element is the size before plus the number of pushes and
    emplaces. *)
Theorem size_accounting (cs : list call) (value : T) (s : t T) :
  m s = shared_mutex.unlocked →
  ∃ rs value' s',
    run moved_from cs value s = Returns (rs, value') s' ∧
    std_stack.size (data s') + pops rs = std_stack.size (data s) + pushes cs.
Proof.
  intros Hm. rewrite (quiet_eta s Hm).
  destruct (run_quiet moved_from cs value (data s)) as (rs & value' & d' & Hr & Hn).
  by exists rs, value', (idle d').
Qed.

(** X8. Pushes go on top of what is there, and as many pops undo them:
    after [push] of v1, ..., vk on a stack holding [d], k pops return
    vk, ..., v1, all present, and the stack holds [d] again. *)
Theorem push_all_pop_all (vs d : list T) :
  (push_all vs ;– pop_n moved_from (length vs)) (idle d)
    = Returns ((λ v, Some (make_shared v)) <$> reverse vs) (idle d).
Proof.
  unfold bind. rewrite push_all_quiet, pop_n_quiet. unfold pop_results.
  rewrite take_app_length', drop_app_length' by (by rewrite length_reverse).
  rewrite length_app, length_reverse.
  replace (length vs - (length vs + length d)) with 0 by lia.
  simpl. by rewrite app_nil_r.
Qed.
End members.

(** * Further properties of copies *)
Section snapshots.
Context {T : Type}.
Context (moved_from : T → T).

Import threadsafe_stack.

(** X9. A copy is a snapshot, and the two objects are independent in
    both directions: whatever calls are made on the source after the
    copy was taken, the copy holds what the source held then; whatever
    calls are made on the copy, the source is as it was. *)
Theorem copy_is_a_snapshot (σ : gmap positive (t T)) (a : positive) (A : t T)
    (cs : list call) (value : T) :
  σ !! a = Some A →
  m A = shared_mutex.unlocked →
  ∃ b σ',
    heap.copy_construct a σ = Returns b σ' ∧
    b ≠ a ∧
    (∃ r σ'', heap.on a (run moved_from cs value) σ' = Returns r σ'' ∧
              heap.contents b σ'' = Some (data A)) ∧
    (∃ r σ'', heap.on b (run moved_from cs value) σ' = Returns r σ'' ∧
              σ'' !! a = Some A).
Proof.
  intros Ha Hm.
  assert (Hfresh : fresh (dom σ) ≠ a).
  { intros E. apply (is_fresh (dom σ)). rewrite E. apply elem_of_dom; eauto. }
  assert (HmA : m A ≠ shared_mutex.locked_exclusive) by (by rewrite Hm).
  exists (fresh (dom σ)), (<[fresh (dom σ):=mk (data A) shared_mutex.unlocked]> σ).
  split.
  { unfold heap.copy_construct, heap.alloc.
    rewrite Ha, (copy_returns A HmA), insert_id by done. reflexivity. }
  split; [exact Hfresh|].
  destruct (run_quiet moved_from cs value (data A)) as (rs & value' & d' & Hr & _).
  split.
  - exists (rs, value'), (<[a:=mk d' shared_mutex.unlocked]>
      (<[fresh (dom σ):=mk (data A) shared_mutex.unlocked]> σ)).
    split.
    + unfold heap.on. rewrite lookup_insert_ne, Ha by done.
      by rewrite (quiet_eta A Hm), Hr.
    + unfold heap.contents.
      by rewrite lookup_insert_ne, lookup_insert_eq by done.
  - exists (rs, value'), (<[fresh (dom σ):=mk d' shared_mutex.unlocked]>
      (<[fresh (dom σ):=mk (data A) shared_mutex.unlocked]> σ)).
    split.
    + unfold heap.on. by rewrite lookup_insert_eq, Hr.
    + by rewrite !lookup_insert_ne by done.
Qed.
End snapshots.

(** * Further properties of interleaved executions

    Pushers and poppers at work at the same time, on a stack that may
    already hold elements. *)
Section interleavings.
Context {T : Type}.
Context (moved_from : T → T).

Import threadsafe_stack conc.

Abbreviation start d vss n :=
  (mk_config (mk d shared_mutex.unlocked) (pushers vss ++ @poppers T n)).

Lemma inv_start (d : list T) (vss : list (list T)) (n : nat) :
  inv (concat vss ++ d) (start d vss n).
Proof.
  destruct (pushers_start vss) as (Hi & Hn & Hh & Ht & Hk).
  destruct (poppers_start (T:=T) n) as (Hi' & Hn' & Hh' & _ & Ht' & Hg' & _).
  unfold inv, total, popped; simpl.
  rewrite !sum_list_with_app, !fmap_app, !concat_app.
  rewrite Hi, Hn, Hh, Ht, Hi', Hn', Hh', Ht', Hg', (pushers_got _ Hk).
  split; [done|]. split; [simpl; lia|]. simpl. by rewrite !app_nil_r.
Qed.

Lemma exec_inv all sched (c c' : config) :
  inv all c → exec moved_from sched c = Returns () c' → inv all c'.
Proof. apply exec_preserves, inv_step. Qed.

(** No thread of these pools takes the mutex in shared mode. *)
Lemma no_readers_step i (c c' : @config T) :
  (∀ k, m (stack c) ≠ shared_mutex.locked_shared k) →
  sched_step moved_from i c = Returns () c' →
  ∀ k, m (stack c') ≠ shared_mutex.locked_shared k.
Proof.
  intros Hno Hstep.
  destruct (step_inv _ _ _ _ Hstep) as (l1 & l2 & th & th' & body & _ & _ & Hb & Hs).
  destruct c' as [s' pl']. destruct (stack c) as [d mx]; simpl in *.
  destruct mx as [| |k0]; [| |by destruct (Hno k0)].
  all: destruct th as [[|v todo]|v todo|todo|got|got|got|got res|got [res|]|got];
    simpl in Hb; simplify_eq;
    destruct d; compute in Hs; by simplify_eq.
Qed.

Lemma sum_le_1_unique {A} (f : A → nat) (l : list A) i j x y :
  sum_list_with f l ≤ 1 →
  l !! i = Some x → l !! j = Some y → 0 < f x → 0 < f y → i = j.
Proof.
  revert i j; induction l as [|z l IH]; intros i j; simpl; [done|].
  intros Hsum Hi Hj Hx Hy. destruct i as [|i], j as [|j]; simpl in *.
  - reflexivity.
  - simplify_eq.
    pose proof (sum_list_with_in _ f _ (list_elem_of_lookup_2 _ _ _ Hj)). lia.
  - simplify_eq.
    pose proof (sum_list_with_in _ f _ (list_elem_of_lookup_2 _ _ _ Hi)). lia.
  - f_equal. apply IH; [lia|done..].
Qed.

(** X10. Mutual exclusion: at every point of every execution at most
    one thread is between the lock and the unlock of a member function,
    and there is one exactly when the mutex is held. *)
Theorem mutual_exclusion (d : list T) (vss : list (list T)) (n : nat)
    (sched : list nat) (c : config) :
  exec moved_from sched (start d vss n) = Returns () c →
  (∀ i j thi thj,
      pool c !! i = Some thi → pool c !! j = Some thj →
      inside thi = 1 → inside thj = 1 → i = j) ∧
  ((∃ i th, pool c !! i = Some th ∧ inside th = 1) ↔
   m (stack c) = shared_mutex.locked_exclusive).
Proof.
  intros Hex.
  pose proof (exec_inv _ _ _ _ (inv_start d vss n) Hex) as (Hlock & _ & _).
  assert (Hno : ∀ k, m (stack c) ≠ shared_mutex.locked_shared k).
  { eapply (exec_preserves moved_from
              (λ c, ∀ k, m (stack c) ≠ shared_mutex.locked_shared k));
      [apply no_readers_step| |exact Hex]. done. }
  pose proof (held_le_1 (m (stack c))) as Hle. unfold total in Hlock.
  split.
  - intros i j thi thj Hi Hj Hin1 Hin2.
    eapply (sum_le_1_unique inside); eauto; lia.
  - split.
    + intros (i & th & Hi & Hin).
      pose proof (sum_list_with_in _ inside _ (list_elem_of_lookup_2 _ _ _ Hi)).
      destruct (m (stack c)) as [| |k]; simpl in *; [lia|done|by destruct (Hno k)].
    + intros Hm. rewrite Hm in Hlock. simpl in Hlock.
      destruct (sum_pos_lookup inside (pool c)) as (i & th & Hi & Hin); [lia|].
      exists i, th. split; [done|]. destruct th; simpl in *; lia.
Qed.

(** X11. No interleaving runs into undefined behaviour: whatever the
    schedule, no thread reaches [data.top()] or [data.pop()] on an empty
    [data]. *)
Theorem executions_are_defined (d : list T) (vss : list (list T)) (n : nat)
    (sched : list nat) :
  exec moved_from sched (start d vss n) ≠ Undefined.
Proof.
  generalize (inv_start d vss n). generalize (start d vss n) as c.
  induction sched as [|i sched IH]; intros c Hinv; simpl; [done|].
  unfold bind. destruct (sched_step moved_from i c) as [[] c1| |] eqn:Hs.
  - apply IH. eapply inv_step; eauto.
  - done.
  - by destruct (step_defined moved_from _ i c Hinv).
Qed.

Lemma exec_fuel sched (c c' : @config T) :
  exec moved_from sched c = Returns () c' → length sched + fuel c' ≤ fuel c.
Proof.
  revert c; induction sched as [|i sched IH]; intros c; simpl.
  - intros [= <-]. lia.
  - unfold bind. destruct (sched_step moved_from i c) as [[] c1| |] eqn:Hs;
      [|done..].
    intros Hex. apply IH in Hex. apply fuel_step in Hs. lia.
Qed.

Lemma fuel_start (d : list T) (vss : list (list T)) (n : nat) :
  fuel (start d vss n) = 5 * length d + 8 * length (concat vss) + 3 * n.
Proof.
  unfold fuel, total; simpl. rewrite sum_list_with_app.
  assert (sum_list_with weight (pushers vss) = 8 * length (concat vss)) as ->.
  { unfold pushers. induction vss as [|vs vss IH]; csimpl; [done|].
    rewrite length_app, IH. lia. }
  assert (sum_list_with weight (@poppers T n) = 3 * n) as ->.
  { unfold poppers. induction n as [|n IH]; csimpl; [done|]. rewrite IH. lia. }
  lia.
Qed.

(** X12. No deadlock and no livelock: an execution that starts with
    [length d] elements in the stack, N values to push and n poppers has
    at most 5 * [length d] + 8 * N + 3 * n steps, and from whatever
    state it has reached some schedule runs every thread to its end. *)
Theorem executions_terminate (d : list T) (vss : list (list T)) (n : nat)
    (sched : list nat) (c : config) :
  exec moved_from sched (start d vss n) = Returns () c →
  length sched ≤ 5 * length d + 8 * length (concat vss) + 3 * n ∧
  ∃ sched' c',
    exec moved_from sched' c = Returns () c' ∧ all_finished c' = true.
Proof.
  intros Hex. split.
  - apply exec_fuel in Hex. rewrite fuel_start in Hex. lia.
  - eapply completion, exec_inv; [apply inv_start|exact Hex].
Qed.

End interleavings.

(** * The order of the elements pushed by one thread *)
Section push_order.
Context {T : Type}.
Context (moved_from : T → T).

Import threadsafe_stack conc.

(** The stack is [top] over the initial content [d], and the values a
    pusher has pushed so far lie in [top] in the order of its pushes,
    the latest uppermost. *)
Abbreviation in_order vss d c :=
  (forallb (λ th, negb (is_popper th)) (pool c) = true ∧
   ∃ top : list T,
     data (stack c) = top ++ d ∧
     ∀ i vs th,
       vss !! i = Some vs → pool c !! i = Some th →
       ∃ pushed, vs = pushed ++ todo_of th ∧ reverse pushed `sublist_of` top).


End push_order.

(** * Instances of the further properties *)
Section instances.
Import threadsafe_stack.

Example demo_mixed_runs :
  conc.exec nat_moved_from demo_mixed_prefix demo_mixed_start
    = Returns () demo_mixed_mid ∧
  conc.exec nat_moved_from demo_mixed_sched demo_mixed_start
    = Returns () demo_mixed_end.
Proof. split; reflexivity. Qed.

(** Two readers hold the mutex: [empty()] returns, twice, and the two
    readers still hold it. *)
Lemma calls_release_the_lock_witness :
  ∃ s', run nat_moved_from [call_empty; call_empty] 0
            (mk [5] (shared_mutex.locked_shared 1))
          = Returns ([res_bool false; res_bool false], 0) s' ∧
        m s' = shared_mutex.locked_shared 1.
Proof.
  eexists. split; [reflexivity|].
  apply (calls_release_the_lock nat_moved_from [call_empty; call_empty] 0
           (mk [5] (shared_mutex.locked_shared 1)) _
           ([res_bool false; res_bool false], 0)).
  reflexivity.
Defined.

Lemma size_accounting_witness :
  ∃ rs value' s',
    run nat_moved_from [call_push 1; call_pop; call_pop; call_pop_ref] 0
        (mk [5] shared_mutex.unlocked)
      = Returns (rs, value') s' ∧
    std_stack.size (data s') + pops rs = 1 + 1.
Proof.
  apply (size_accounting nat_moved_from
           [call_push 1; call_pop; call_pop; call_pop_ref] 0
           (mk [5] shared_mutex.unlocked)).
  reflexivity.
Defined.

Lemma copy_is_a_snapshot_witness :
  ∃ b σ',
    heap.copy_construct 1%positive demo_store = Returns b σ' ∧
    b ≠ 1%positive ∧
    (∃ r σ'', heap.on 1%positive
                (run nat_moved_from [call_pop; call_push 9] 0) σ'
              = Returns r σ'' ∧
              heap.contents b σ'' = Some [3; 2; 1]) ∧
    (∃ r σ'', heap.on b (run nat_moved_from [call_pop; call_push 9] 0) σ'
              = Returns r σ'' ∧
              σ'' !! 1%positive = Some (mk [3; 2; 1] shared_mutex.unlocked)).
Proof.
  apply (copy_is_a_snapshot nat_moved_from demo_store 1%positive
           (mk [3; 2; 1] shared_mutex.unlocked) [call_pop; call_push 9] 0);
    [apply lookup_singleton_eq|reflexivity].
Defined.

(** Thread 0 is inside [push]; it is the only one. *)
Lemma mutual_exclusion_witness :
  ∃ i th, conc.pool demo_mixed_mid !! i = Some th ∧ conc.inside th = 1.
Proof.
  destruct (mutual_exclusion nat_moved_from [7] demo_vss 1
              demo_mixed_prefix demo_mixed_mid) as [_ [_ Hheld]];
    [reflexivity|].
  apply Hheld. reflexivity.
Defined.

(** The bound of 32 steps is reached by [demo_mixed_sched]. *)
Lemma executions_terminate_witness :
  length demo_mixed_sched ≤ 5 * 1 + 8 * 3 + 3 * 1 ∧
  ∃ sched' c',
    conc.exec nat_moved_from sched' demo_mixed_end = Returns () c' ∧
    conc.all_finished c' = true.
Proof.
  apply (executions_terminate nat_moved_from [7] demo_vss 1
           demo_mixed_sched demo_mixed_end).
  reflexivity.
Defined.


End instances.

(** * The order of the elements popped by one thread *)
Section pop_order.
Context {T : Type}.
Context (moved_from : T → T).

Import threadsafe_stack conc.

(** The initial content [d] is [taken] over what is left in the stack,
    and the values of each popper lie in [taken] in the order it got
    them. *)
Abbreviation in_stack_order d c :=
  (forallb is_popper (pool c) = true ∧
   ∃ taken : list T,
     d = taken ++ drop (total hollow c) (data (stack c)) ∧
     Forall (λ th, got_of th `sublist_of` taken) (pool c)).

Lemma in_stack_order_step all (d : list T) i (c c' : config) :
  inv all c →
  in_stack_order d c →
  sched_step moved_from i c = Returns () c' →
  in_stack_order d c'.
Proof.
  intros (Hlock & Htop & _) (Hk & taken & Hd & Hall) Hstep.
  destruct (step_inv _ _ _ _ Hstep) as (l1 & l2 & th & th' & body & Hp & Hp' & Hb & Hs).
  clear Hstep.
  destruct c as [s pl], c' as [s' pl']; simpl in *; subst pl pl'.
  unfold total in *; simpl in *.
  rewrite forallb_app in Hk |- *. simpl in Hk |- *.
  rewrite (thread_step_kind _ _ _ _ _ _ Hb Hs).
  split; [exact Hk|].
  rewrite !sum_list_with_app in *. simpl in Hlock, Htop, Hd |- *.
  apply Forall_app in Hall as [Hl1 Hall]. apply Forall_cons in Hall as [Hth Hl2].
  pose proof (hollow_le_inside l1). pose proof (hollow_le_inside l2).
  pose proof (held_le_1 (m s)).
  destruct th as [[|v todo]|v todo|todo|got|got|got|got res|got [res|]|got];
    simpl in Hb, Hk; simplify_eq;
    try (by rewrite ?andb_false_r in Hk);
    unfold bind, ret, scoped_unlock, data_empty, data_pop, data_move_top in Hs.
  all: try (destruct (scoped_lock s) as [[] s1| |] eqn:Hl; [|discriminate..];
            apply scoped_lock_inv in Hl as [Hm ->]; rewrite Hm in * ).
  all: simpl in *.
  all: assert (Hh1 : sum_list_with hollow l1 = 0) by lia.
  all: assert (Hh2 : sum_list_with hollow l2 = 0) by lia.
  all: rewrite ?Hh1, ?Hh2 in *; simpl in *.
  all: destruct (data s) as [|x dd] eqn:Hdt; simpl in Hs; simplify_eq;
    simpl; rewrite ?Hdt; simpl.
  all: try (exists taken; split; [done|];
            apply Forall_app; split; [done|]; apply Forall_cons; by split).
  exists (taken ++ [x]). split; [by rewrite <- app_assoc|].
  assert (Hmono : ∀ l : list thread,
            Forall (λ th, got_of th `sublist_of` taken) l →
            Forall (λ th, got_of th `sublist_of` taken ++ [x]) l).
  { intros l Hl. eapply Forall_impl; [exact Hl|].
    intros th Hsub. by apply sublist_inserts_r. }
  apply Forall_app. split; [by apply Hmono|].
  apply Forall_cons. split; [|by apply Hmono].
  simpl. by apply sublist_app.
Qed.

(** X15. Each popper gets its elements in the order of the stack: when
    poppers alone run on a stack holding [d], in any interleaving, the
    values a popper has got so far lie in [d] in the order it got them,
    the upper ones first (other poppers having taken those in between). *)
Theorem pops_keep_stack_order (d : list T) (n : nat)
    (sched : list nat) (c : config) (i : nat) (th : thread) :
  exec moved_from sched (mk_config (mk d shared_mutex.unlocked) (poppers n))
    = Returns () c →
  pool c !! i = Some th →
  got_of th `sublist_of` d.
Proof.
  intros Hex Hi.
  assert (Hinv : inv d c ∧ in_stack_order d c).
  { eapply (exec_preserves moved_from (λ c, inv d c ∧ in_stack_order d c));
      [| |exact Hex].
    - intros j c1 c2 [Hinv Hord] Hs. split; [by eapply inv_step|].
      by eapply in_stack_order_step.
    - split; [by apply inv_poppers|].
      destruct (poppers_start (T:=T) n) as (_ & _ & Hh & _ & _ & _ & Hk).
      split; [exact Hk|]. exists []. unfold total; simpl. rewrite Hh.
      split; [done|]. unfold poppers. apply Forall_replicate. by simpl. }
  destruct Hinv as (_ & _ & taken & Hd & Hall).
  rewrite Hd. apply sublist_inserts_r.
  by apply (proj1 (Forall_lookup _ _) Hall i th).
Qed.
End pop_order.

(** * The copy constructor and the mutex *)
Section copy_lock.
Context {T : Type}.

Import threadsafe_stack.

(** X16. The copy constructor is a reader of its source and does not
    copy the mutex: whenever no writer holds the source, also while
    readers hold it, the new object has the source's content and a free
    mutex of its own, and the source, mutex included, is as before. The
    constructor waits exactly when a writer holds the source, and never
    runs into undefined behaviour. *)
Theorem copy_is_a_reader (other : t T) :
  (m other ≠ shared_mutex.locked_exclusive →
   copy other = Returns (mk (data other) shared_mutex.unlocked) other) ∧
  (copy other = Blocks ↔ m other = shared_mutex.locked_exclusive) ∧
  copy other ≠ Undefined.
Proof.
  destruct other as [d [| |[|k]]]; (split; [intros H|split; [split; intros H|]]);
    try done; by destruct H.
Qed.
End copy_lock.

(** Of 2 over 3 over 1, popper 0 got 2 and then 1. *)
Lemma pops_keep_stack_order_witness :
  conc.got_of (conc.popper_done [2; 1]) `sublist_of` [2; 3; 1].
Proof.
  apply (pops_keep_stack_order nat_moved_from [2; 3; 1] 2 demo_sched2 demo_c2
           0 (conc.popper_done [2; 1])); reflexivity.
Defined.
